(** * The Duffing oscillator solver of [main.py]

    A shallow embedding of the numerical core of the script: the potential
    [V], its derivative [dVdx], the vector field [deriv], the driver
    [solve_duffing], which builds a time grid with [np.arange], hands it to
    [scipy.integrate.odeint] and cuts the transient off by slicing, and the
    strided sampling [x[::pstep]] of the result.

    - [RealModel] holds the equation of motion over the real numbers:
      [V], [dVdx] and [deriv] with [np.cos] read as [cos].  Statements
      about the potential as a function, its derivative and the energy
      are made there.
    - [Binary64] holds [solve_duffing] over the IEEE 754 binary64 numbers
      Python floats are, on Rocq's primitive floats: [+ - * /] round to
      nearest even exactly as CPython's do, [int], [/] and [np.arange]
      raise where Python's do.  Every statement about [solve_duffing] is
      made there.

    [odeint] and the libm functions behind [**] and [np.cos] on doubles
    are not part of the script; they are parameters of the sections that
    use them. *)

From Stdlib Require Import ZArith List Bool Lia.
From Stdlib Require Import Reals Lra.
From Stdlib Require Import Floats.
Import ListNotations.

Set Implicit Arguments.

(** ** Python exceptions as an error monad *)

(** The exceptions the scalar arithmetic of [solve_duffing] can raise. *)
Inductive exn : Set :=
| ZeroDivisionError   (* float division by zero *)
| OverflowError       (* int(inf), an int too large for a float *)
| ValueError.         (* int(nan), a grid length that is nan or too large *)

Inductive result (A : Type) : Type :=
| Return : A -> result A
| Raise : exn -> result A.

Arguments Return {A} _.
Arguments Raise {A} _.

Definition bind {A B : Type} (c : result A) (k : A -> result B) : result B :=
  match c with
  | Return a => k a
  | Raise e => Raise e
  end.

Declare Scope py_scope.
Delimit Scope py_scope with py.
Notation "x <- c ;; k" := (bind c (fun x => k))
  (at level 61, c at next level, right associativity) : py_scope.

Definition returned {A : Type} (c : result A) : option A :=
  match c with
  | Return a => Some a
  | Raise _ => None
  end.

Definition raises {A : Type} (c : result A) : Prop :=
  match c with
  | Return _ => False
  | Raise _ => True
  end.

(** ** Python slicing [l[idx:]]

    A non-negative start drops that many leading items (all of them when it
    is past the end); a negative start counts from the end and is clamped
    at the beginning. *)
Definition slice_from {A : Type} (idx : Z) (l : list A) : list A :=
  if (0 <=? idx)%Z then skipn (Z.to_nat idx) l
  else skipn (Z.to_nat (Z.max 0 (Z.of_nat (length l) + idx))) l.

(** The four components of the tuple [solve_duffing] returns. *)
Section Projections.
Variables T S D : Type.
Definition times_of (r : list T * list S * D * Z) : list T := fst (fst (fst r)).
Definition states_of (r : list T * list S * D * Z) : list S := snd (fst (fst r)).
Definition dt_of (r : list T * list S * D * Z) : D := snd (fst r).
Definition step_of (r : list T * list S * D * Z) : Z := snd r.
End Projections.

(** * The equation of motion over the real numbers *)
Module RealModel.

Local Open Scope R_scope.

(** [X = (x, xdot)]: position and velocity. *)
Definition state : Type := (R * R)%type.

(** [V = lambda x: 0.5 * x**2 * (0.5 * x**2 - 1)] *)
Definition V (x : R) : R := 0.5 * x ^ 2 * (0.5 * x ^ 2 - 1).

(** [dVdx = lambda x: x**3 - x] *)
Definition dVdx (x : R) : R := x ^ 3 - x.

(** [def deriv(X, t, gamma, delta, omega)] *)
Definition deriv (X : state) (t gamma delta omega : R) : state :=
  let '(x, xdot) := X in
  let xdotdot := - dVdx x - delta * xdot + gamma * cos (omega * t) in
  (xdot, xdotdot).

End RealModel.

(** * The program over IEEE 754 binary64 *)
Module Binary64.

Local Open Scope float_scope.
Local Open Scope py_scope.

Definition state : Type := (float * float)%type.

(** [np.pi], the double nearest to pi. *)
Definition np_pi : float := 0x1.921fb54442d18p+1.

(** A Python [int] converted to a float, rounding to nearest even. *)
Definition of_Z (z : Z) : float := SF2Prim (binary_normalize prec emax z 0 false).

(** The conversion [float / int] performs on its integer operand: an
    integer beyond the largest double raises. *)
Definition float_of_int (z : Z) : result float :=
  let f := of_Z z in
  if is_infinity f then Raise OverflowError else Return f.

(** Python's [/] on floats: a zero divisor (of either sign) raises. *)
Definition div (a b : float) : result float :=
  if (b =? 0) then Raise ZeroDivisionError else Return (a / b).

(** The integer numerator [+-m] of a finite float [+-m * 2^e]. *)
Definition signed (s : bool) (m : positive) : Z := if s then Zneg m else Zpos m.

(** Python's [int] on a float: truncation toward zero; [nan] and the
    infinities raise. *)
Definition int (f : float) : result Z :=
  match Prim2SF f with
  | S754_nan => Raise ValueError
  | S754_infinity _ => Raise OverflowError
  | S754_zero _ => Return 0%Z
  | S754_finite s m e =>
      Return (match e with
              | Z0 => signed s m
              | Zpos p => signed s m * 2 ^ Zpos p
              | Zneg p => Z.quot (signed s m) (2 ^ Zpos p)
              end)%Z
  end.

(** The length [np.arange] derives from [span = stop - start] and the
    quotient [q = span / step]: the ceiling of [q], which as a double has
    to lie between [-2^63] and [2^63]; the conversion to a signed 64-bit
    index then wraps [2^63] itself to [-2^63].  A quotient that is zero
    although [span] is not (an underflow, or a division by an infinity)
    gives the length 1, or 0 when it is a negative zero. *)
Definition arange_length (span q : float) : result Z :=
  match Prim2SF q with
  | S754_nan => Raise ValueError
  | S754_infinity _ => Raise ValueError
  | S754_zero s =>
      Return (if (span =? 0) then 0%Z else if s then 0%Z else 1%Z)
  | S754_finite s m e =>
      let c := (match e with
                | Z0 => signed s m
                | Zpos p => signed s m * 2 ^ Zpos p
                | Zneg p => - ((- signed s m) / 2 ^ Zpos p)
                end)%Z in
      if ((c <? - 2 ^ 63) || (2 ^ 63 <? c))%Z then Raise ValueError
      else if (c =? 2 ^ 63)%Z then Return (- 2 ^ 63)%Z
      else Return c
  end.

(** [np.arange(start, stop, step)] on doubles: a length that is not
    positive gives no item; otherwise the first two items are [start] and
    [start + step], and item [i] after them is [start + i * delta] with
    [delta] the difference of the first two. *)
Definition arange (start stop step : float) : result (list float) :=
  let span := stop - start in
  q <- div span step ;;
  len <- arange_length span q ;;
  let next := start + step in
  let delta := next - start in
  Return (map (fun i => match i with
                        | O => start
                        | S O => next
                        | _ => start + of_Z (Z.of_nat i) * delta
                        end)
              (seq 0 (Z.to_nat len))).

Section Solver.

(** The libm functions behind [np.cos] and [**] on doubles. *)
Variable np_cos : float -> float.
Variable np_power : float -> float -> float.

(** [dVdx = lambda x: x**3 - x] *)
Definition dVdx (x : float) : float := np_power x 3 - x.

(** [def deriv(X, t, gamma, delta, omega)] *)
Definition deriv (X : state) (t gamma delta omega : float) : state :=
  let '(x, xdot) := X in
  let xdotdot := - dVdx x - delta * xdot + gamma * np_cos (omega * t) in
  (xdot, xdotdot).

(** [scipy.integrate.odeint(func, y0, t, args)] *)
Variable odeint :
  (state -> float -> float -> float -> float -> state) ->
  state -> list float -> float * float * float -> list state.

(** [def solve_duffing(tmax, dt_per_period, t_trans, x0, v0, gamma, delta, omega)] *)
Definition solve_duffing (tmax : float) (dt_per_period : Z)
  (t_trans x0 v0 gamma delta omega : float)
  : result (list float * list state * float * Z) :=
  period <- div (2 * np_pi) omega ;;
  w <- div (2 * np_pi) omega ;;
  n <- float_of_int dt_per_period ;;
  dt <- div w n ;;
  q <- div period dt ;;
  step <- int q ;;
  t <- arange 0 tmax dt ;;
  let X0 := (x0, v0) in
  let X := odeint deriv X0 t (gamma, delta, omega) in
  r <- div t_trans dt ;;
  idx <- int r ;;
  Return (slice_from idx t, slice_from idx X, dt, step).

End Solver.

(** Concrete stand-ins for the three parameters, to run the model: a
    cube by repeated multiplication, a Taylor polynomial of the cosine and
    explicit Euler along the grid. *)
Definition power_by_mul (x y : float) : float :=
  if (y =? 3) then x * x * x else if (y =? 2) then x * x else x.

Definition cos_taylor (x : float) : float :=
  let x2 := x * x in
  1 - x2 / 2 + x2 * x2 / 24 - x2 * x2 * x2 / 720.

Fixpoint euler_from (func : state -> float -> float -> float -> float -> state)
  (y : state) (t0 : float) (ts : list float) (args : float * float * float)
  : list state :=
  match ts with
  | [] => []
  | t1 :: ts' =>
      let '(gamma, delta, omega) := args in
      let d := func y t0 gamma delta omega in
      let y' := (fst y + (t1 - t0) * fst d, snd y + (t1 - t0) * snd d) in
      y' :: euler_from func y' t1 ts' args
  end.

Definition euler (func : state -> float -> float -> float -> float -> state)
  (y0 : state) (t : list float) (args : float * float * float) : list state :=
  match t with
  | [] => []
  | t0 :: ts => y0 :: euler_from func y0 t0 ts args
  end.

End Binary64.

(** * Theorems *)

Module RealFacts.
Import RealModel.
Local Open Scope R_scope.

(** ** The equation-of-motion model *)

Lemma half_inv2 : 0.5 = / 2.
Proof. lra. Qed.

Lemma V_poly (x : R) : V x = x ^ 4 / 4 - x ^ 2 / 2.
Proof. unfold V. rewrite half_inv2. field. Qed.

(** C4. For every state [(x, xdot)], time [t] and parameters, [deriv]
    returns the pair whose first component is the input velocity [xdot]
    and whose second is [-dVdx(x) - delta*xdot + gamma*cos(omega*t)];
    being a function of its arguments alone, it has no side effect. *)
Theorem deriv_spec (x xdot t gamma delta omega : R) :
  deriv (x, xdot) t gamma delta omega
  = (xdot, - dVdx x - delta * xdot + gamma * cos (omega * t))
  /\ fst (deriv (x, xdot) t gamma delta omega) = xdot
  /\ snd (deriv (x, xdot) t gamma delta omega)
     = x - x * x * x - delta * xdot + gamma * cos (omega * t).
Proof.
  unfold deriv, dVdx; cbn [fst snd].
  repeat split; ring.
Qed.

(** C5. [V(x) = 0.5*x^2*(0.5*x^2 - 1)] and [dVdx(x) = x^3 - x] for every
    real [x], and [dVdx] is the derivative of [V] at every point. *)
Theorem dVdx_is_derivative_of_V (x : R) :
  V x = 0.5 * x ^ 2 * (0.5 * x ^ 2 - 1)
  /\ dVdx x = x ^ 3 - x
  /\ derivable_pt_lim V x (dVdx x).
Proof.
  split; [reflexivity | split; [reflexivity |]].
  pose (P := minus_fct (mult_fct (fun y => y ^ 4) (fct_cte (/ 4)))
                       (mult_fct (fun y => y ^ 2) (fct_cte (/ 2)))).
  assert (HP : derivable_pt_lim P x (dVdx x)).
  { replace (dVdx x)
      with ((INR 4 * x ^ pred 4 * fct_cte (/ 4) x + (fun y => y ^ 4) x * 0)
            - (INR 2 * x ^ pred 2 * fct_cte (/ 2) x + (fun y => y ^ 2) x * 0)).
    - unfold P.
      apply derivable_pt_lim_minus;
        apply derivable_pt_lim_mult;
        first [apply derivable_pt_lim_pow | apply derivable_pt_lim_const].
    - unfold dVdx, fct_cte. simpl. field. }
  intros eps Heps.
  destruct (HP eps Heps) as [d Hd].
  exists d. intros h Hh Hlt.
  rewrite !V_poly.
  exact (Hd h Hh Hlt).
Qed.

(** C8. [V] is even and [dVdx] is odd. *)
Theorem V_even_dVdx_odd (x : R) :
  V x = V (- x) /\ dVdx (- x) = - dVdx x.
Proof.
  unfold V, dVdx. split; ring.
Qed.

End RealFacts.

(** ** Slicing *)

Section Slices.
Variable A : Type.
Implicit Types (l : list A) (idx : Z).

Lemma slice_from_length l idx :
  (0 <= idx)%Z -> length (slice_from idx l) = (length l - Z.to_nat idx)%nat.
Proof.
  intro H. unfold slice_from.
  apply Z.leb_le in H. rewrite H. apply length_skipn.
Qed.

Lemma slice_from_nth_error l idx i :
  (0 <= idx)%Z ->
  nth_error (slice_from idx l) i = nth_error l (Z.to_nat idx + i).
Proof.
  intro H. unfold slice_from.
  apply Z.leb_le in H. rewrite H. apply nth_error_skipn.
Qed.

Lemma slice_from_nil l idx :
  (Z.of_nat (length l) <= idx)%Z -> slice_from idx l = [].
Proof.
  intro H. unfold slice_from.
  replace (0 <=? idx)%Z with true by (symmetry; apply Z.leb_le; lia).
  apply skipn_all2. lia.
Qed.

End Slices.

Module Binary64Facts.
Import Binary64.
Local Open Scope float_scope.

(** The literals of the concrete scenario, as the doubles Python reads. *)
Definition f0_28 : float := 0x1.1eb851eb851ecp-2.
Definition f0_08 : float := 0x1.47ae147ae147bp-4.
Definition f0_02 : float := 0x1.47ae147ae147bp-6.

Lemma bind_Return (A B : Type) (c : result A) (k : A -> result B) (b : B) :
  bind c k = Return b -> exists a, c = Return a /\ k a = Return b.
Proof.
  destruct c as [a | e]; cbn; intro H; [exists a; auto | discriminate].
Qed.

Ltac open_bind H :=
  let a := fresh "a" in
  let E := fresh "E" in
  apply bind_Return in H; destruct H as [a [E H]].

Section Runs.

Variable np_cos : float -> float.
Variable np_power : float -> float -> float.
Variable odeint :
  (state -> float -> float -> float -> float -> state) ->
  state -> list float -> float * float * float -> list state.

(** C1. On [tmax=100, dt_per_period=100, t_trans=10, x0=0, v0=0,
    gamma=0.08, delta=0.02, omega=0.28] the call returns
    [dt = 0.22439947525641377] and [step = 100]; the cutoff index is
    [int(44.56...) = 44], so the first returned time is
    [44 * dt = 9.873576911282205], which lies before [t_trans = 10]: the
    grid point just below [t_trans] is kept, not dropped. *)
Theorem scenario_first_time_before_t_trans :
  let r := returned (solve_duffing np_cos np_power odeint
                       100 100 10 0 0 f0_08 f0_02 f0_28) in
  option_map (@dt_of _ _ _) r = Some 0x1.cb91f3bbba13fp-3
  /\ option_map (@step_of _ _ _) r = Some 100%Z
  /\ option_map (fun x => hd_error (times_of x)) r = Some (Some 0x1.3bf457910fedbp+3)
  /\ (0x1.3bf457910fedbp+3 <? 10) = true
  /\ (10 <=? 0x1.3bf457910fedbp+3) = false.
Proof.
  vm_compute. repeat split; reflexivity.
Qed.

(** C3. On [omega = 1.0, dt_per_period = 100] the quotient [period / dt]
    is the double [99.99999999999999], which [int] truncates: the call
    returns [step = 99], not [dt_per_period = 100]. *)
Theorem step_truncated_below_samples_per_period :
  option_map (@step_of _ _ _)
    (returned (solve_duffing np_cos np_power odeint 100 100 10 0 0 f0_08 f0_02 1))
  = Some 99%Z
  /\ div (2 * np_pi) 1 = Return 0x1.921fb54442d18p+2
  /\ div 0x1.921fb54442d18p+2 100 = Return 0x1.015bf9217271ap-4
  /\ (0x1.921fb54442d18p+2 / 0x1.015bf9217271ap-4 <? 100) = true.
Proof.
  vm_compute. repeat split; reflexivity.
Qed.

(** C10. Two calls that agree on [omega] and [dt_per_period] and both
    return, return the same [dt] and the same [step], whatever their
    [tmax], [t_trans], [x0], [v0], [gamma] and [delta]. *)
Theorem dt_and_step_depend_on_omega_and_samples_only
  (omega : float) (dt_per_period : Z)
  (tmax t_trans x0 v0 gamma delta : float)
  (tmax' t_trans' x0' v0' gamma' delta' : float)
  (r r' : list float * list state * float * Z) :
  solve_duffing np_cos np_power odeint
    tmax dt_per_period t_trans x0 v0 gamma delta omega = Return r ->
  solve_duffing np_cos np_power odeint
    tmax' dt_per_period t_trans' x0' v0' gamma' delta' omega = Return r' ->
  dt_of r = dt_of r' /\ step_of r = step_of r'.
Proof.
  unfold solve_duffing. intros H H'.
  do 6 open_bind H. do 6 open_bind H'.
  repeat match goal with
         | E1 : ?c = Return ?x, E2 : ?c = Return ?y |- _ =>
             rewrite E1 in E2; injection E2 as <-
         end.
  do 3 open_bind H. do 3 open_bind H'.
  injection H as <-. injection H' as <-.
  unfold dt_of, step_of; cbn [fst snd].
  split; reflexivity.
Qed.

End Runs.

Lemma dt_and_step_depend_on_omega_and_samples_only_witness :
  exists r r',
    solve_duffing cos_taylor power_by_mul euler 7 2 4 0 0 f0_08 f0_02 1 = Return r
    /\ solve_duffing cos_taylor power_by_mul euler 9 2 0 1 1 f0_02 0 1 = Return r'
    /\ dt_of r = dt_of r' /\ step_of r = step_of r'.
Proof.
  eexists. eexists.
  split; [vm_compute; reflexivity |].
  split; [vm_compute; reflexivity |].
  apply (@dt_and_step_depend_on_omega_and_samples_only
           cos_taylor power_by_mul euler 1 2 7 4 0 0 f0_08 f0_02 9 0 1 1 f0_02 0);
    vm_compute; reflexivity.
Defined.

(** The concrete scenario on doubles, with the Euler integrator: the grid
    has [ceil(100 / dt) = 446] points, 44 are cut, and the 402 returned
    times, all below [tmax], come with 402 states. *)
Example binary64_scenario_arrays :
  match solve_duffing cos_taylor power_by_mul euler 100 100 10 0 0 f0_08 f0_02 f0_28 with
  | Return r =>
      length (times_of r) = 402%nat
      /\ length (states_of r) = 402%nat
      /\ forallb (fun x => x <? 100) (times_of r) = true
      /\ nth_error (times_of r) 1 = Some (45 * dt_of r)
  | Raise _ => False
  end.
Proof. vm_compute. repeat split; reflexivity. Qed.


End Binary64Facts.

(** * Further properties of the equation-of-motion model *)

Module ModelFacts.
Import RealModel.
Local Open Scope R_scope.

Lemma V_as_square (x : R) : V x = (x ^ 2 - 1) ^ 2 / 4 - 1 / 4.
Proof. unfold V. replace 0.5 with (/ 2) by lra. field. Qed.

Lemma dVdx_factored (x : R) : dVdx x = x * (x - 1) * (x + 1).
Proof. unfold dVdx. ring. Qed.

Lemma dVdx_zero_iff (x : R) : dVdx x = 0 <-> x = -1 \/ x = 0 \/ x = 1.
Proof.
  rewrite dVdx_factored. split.
  - intro H. apply Rmult_integral in H. destruct H as [H | H].
    + apply Rmult_integral in H. destruct H as [H | H].
      * right; left; exact H.
      * right; right; lra.
    + left; lra.
  - intros [-> | [-> | ->]]; ring.
Qed.

Lemma V_derivative (x : R) : derivable_pt_lim V x (dVdx x).
Proof.
  pose (P := minus_fct (mult_fct (fun y => y ^ 4) (fct_cte (/ 4)))
                       (mult_fct (fun y => y ^ 2) (fct_cte (/ 2)))).
  assert (HP : derivable_pt_lim P x (dVdx x)).
  { replace (dVdx x)
      with ((INR 4 * x ^ pred 4 * fct_cte (/ 4) x + (fun y => y ^ 4) x * 0)
            - (INR 2 * x ^ pred 2 * fct_cte (/ 2) x + (fun y => y ^ 2) x * 0)).
    - unfold P.
      apply derivable_pt_lim_minus;
        apply derivable_pt_lim_mult;
        first [apply derivable_pt_lim_pow | apply derivable_pt_lim_const].
    - unfold dVdx, fct_cte. simpl. field. }
  intros eps Heps.
  destruct (HP eps Heps) as [d Hd].
  exists d. intros h Hh Hlt.
  replace (V (x + h)) with (P (x + h))
    by (unfold P, minus_fct, mult_fct, fct_cte, V; replace 0.5 with (/ 2) by lra; field).
  replace (V x) with (P x)
    by (unfold P, minus_fct, mult_fct, fct_cte, V; replace 0.5 with (/ 2) by lra; field).
  exact (Hd h Hh Hlt).
Qed.

(** X1. The potential is a double well: [V(x) >= -1/4] everywhere, with
    equality exactly at the two minima [x = 1] and [x = -1], and the hump
    between them tops out at [V(0) = 0]. *)
Theorem V_double_well (x : R) :
  - 1 / 4 <= V x
  /\ (V x = - 1 / 4 <-> x = 1 \/ x = -1)
  /\ V 0 = 0
  /\ (-1 <= x <= 1 -> V x <= 0).
Proof.
  rewrite V_as_square.
  assert (Hsq : 0 <= (x ^ 2 - 1) ^ 2) by apply pow2_ge_0.
  split; [lra |]. split; [| split].
  - split.
    + intro H.
      assert (H0 : (x ^ 2 - 1) * (x ^ 2 - 1) = 0) by lra.
      apply Rmult_integral in H0.
      assert (Hf : (x - 1) * (x + 1) = 0) by (ring_simplify; lra).
      apply Rmult_integral in Hf. destruct Hf; [left | right]; lra.
    + intros [-> | ->]; field.
  - rewrite V_as_square. field.
  - intros [Hlo Hhi].
    assert (H1 : 0 <= x ^ 2) by apply pow2_ge_0.
    assert (H2 : x ^ 2 <= 1) by nra.
    nra.
Qed.

(** X2. Without driving ([gamma = 0]) the vector field vanishes exactly at
    the three rest states [(-1, 0)], [(0, 0)] and [(1, 0)], whatever the
    time, the damping and [omega]: these are the equilibria of the
    oscillator, and a trajectory started on one has nowhere to go. *)
Theorem undriven_equilibria (x xdot t delta omega : R) :
  deriv (x, xdot) t 0 delta omega = (0, 0)
  <-> xdot = 0 /\ (x = -1 \/ x = 0 \/ x = 1).
Proof.
  unfold deriv. split.
  - intro H. injection H as Hv Ha. subst xdot.
    split; [reflexivity |].
    apply dVdx_zero_iff. lra.
  - intros [-> Hx]. apply dVdx_zero_iff in Hx.
    f_equal. rewrite Hx. ring.
Qed.

(** X5. Along any trajectory [(x(s), v(s))] whose derivatives at [t] are the
    two components of [deriv], the mechanical energy [0.5*v^2 + V(x)]
    changes at the rate [-delta*v^2 + gamma*v*cos(omega*t)]: damping only
    removes energy, the drive alone can add it, and with
    [gamma = delta = 0] the energy is stationary. *)
Theorem energy_rate (x v : R -> R) (t gamma delta omega : R) :
  derivable_pt_lim x t (fst (deriv (x t, v t) t gamma delta omega)) ->
  derivable_pt_lim v t (snd (deriv (x t, v t) t gamma delta omega)) ->
  derivable_pt_lim (fun s => 0.5 * v s ^ 2 + V (x s)) t
    (- delta * v t ^ 2 + gamma * v t * cos (omega * t)).
Proof.
  unfold deriv; cbn [fst snd]. intros Hx Hv.
  set (a := - dVdx (x t) - delta * v t + gamma * cos (omega * t)) in *.
  assert (Hkin : derivable_pt_lim (mult_fct (fct_cte 0.5) (mult_fct v v)) t
                   (0 * (mult_fct v v) t + fct_cte 0.5 t * (a * v t + v t * a))).
  { apply derivable_pt_lim_mult.
    - apply derivable_pt_lim_const.
    - apply derivable_pt_lim_mult; exact Hv. }
  assert (Hpot : derivable_pt_lim (comp V x) t (dVdx (x t) * v t)).
  { apply derivable_pt_lim_comp; [exact Hx | apply V_derivative]. }
  assert (Hsum := derivable_pt_lim_plus _ _ _ _ _ Hkin Hpot).
  replace (- delta * v t ^ 2 + gamma * v t * cos (omega * t))
    with (0 * (mult_fct v v) t + fct_cte 0.5 t * (a * v t + v t * a)
          + dVdx (x t) * v t).
  2:{ unfold mult_fct, fct_cte, a. replace 0.5 with (/ 2) by lra. field. }
  intros eps Heps.
  destruct (Hsum eps Heps) as [d Hd].
  exists d. intros h Hh Hlt.
  specialize (Hd h Hh Hlt).
  unfold plus_fct, mult_fct, fct_cte, comp in Hd.
  replace (0.5 * v (t + h) ^ 2 + V (x (t + h)) - (0.5 * v t ^ 2 + V (x t)))
    with (0.5 * (v (t + h) * v (t + h)) + V (x (t + h))
          - (0.5 * (v t * v t) + V (x t))) by ring.
  exact Hd.
Qed.

(** The rest state in the right-hand well is a trajectory of the undriven
    oscillator, and its energy does not change. *)
Lemma energy_rate_witness :
  derivable_pt_lim (fun s => 0.5 * (fun _ : R => 0) s ^ 2 + V ((fun _ : R => 1) s)) 3
    (- 5 * (fun _ : R => 0) 3 ^ 2 + 0 * (fun _ : R => 0) 3 * cos (7 * 3)).
Proof.
  apply (@energy_rate (fun _ => 1) (fun _ => 0) 3 0 5 7).
  - cbn [deriv fst]. apply derivable_pt_lim_const.
  - replace (snd (deriv (1, 0) 3 0 5 7)) with 0
      by (unfold deriv, dVdx; cbn [snd]; ring).
    apply derivable_pt_lim_const.
Defined.

End ModelFacts.

(** * The rest of the script: Poincare sampling *)

(** Python's [l[::step]]: every [step]-th item from the first one on; a
    negative step walks back from the last item; a zero step raises. *)
Fixpoint every_from {A : Type} (q c : nat) (l : list A) : list A :=
  match l with
  | [] => []
  | a :: l' =>
      match c with
      | O => a :: every_from q q l'
      | S c' => every_from q c' l'
      end
  end.

Definition slice_step {A : Type} (step : Z) (l : list A) : result (list A) :=
  match step with
  | Z0 => Raise ValueError
  | Zpos p => Return (every_from (Pos.to_nat p - 1) 0 l)
  | Zneg p => Return (every_from (Pos.to_nat p - 1) 0 (rev l))
  end.

Module RealDriver.
Import RealModel.
Local Open Scope R_scope.
Local Open Scope py_scope.

(** [x, xdot = X.T] *)
Definition columns (X : list state) : list R * list R := (map fst X, map snd X).

(** The two sequences the script scatters: [x[::pstep]] and [xdot[::pstep]]. *)
Definition poincare_section (X : list state) (pstep : Z) : result (list R * list R) :=
  let '(x, xdot) := columns X in
  xs <- slice_step pstep x ;;
  vs <- slice_step pstep xdot ;;
  Return (xs, vs).

End RealDriver.

(** ** Strided slices *)

Section Strides.
Variable A : Type.
Implicit Types (l : list A) (q c j : nat).

Lemma every_from_nth_error q l : forall c j,
  nth_error (every_from q c l) j = nth_error l (c + j * S q).
Proof.
  induction l as [| a l IH]; intros c j.
  - cbn. destruct j; destruct (c + _)%nat; reflexivity.
  - destruct c as [| c]; cbn [every_from].
    + destruct j as [| j]; [reflexivity |].
      cbn [nth_error]. rewrite IH.
      replace (0 + S j * S q)%nat with (S (q + j * S q)) by lia.
      reflexivity.
    + rewrite IH. reflexivity.
Qed.

Lemma every_from_length_lt q l j :
  (j < length (every_from q 0 l))%nat <-> (j * S q < length l)%nat.
Proof.
  rewrite <- !nth_error_Some, every_from_nth_error. reflexivity.
Qed.

End Strides.

Lemma every_from_map (A B : Type) (f : A -> B) q (l : list A) : forall c,
  every_from q c (map f l) = map f (every_from q c l).
Proof.
  induction l as [| a l IH]; intro c; [reflexivity |].
  destruct c; cbn; rewrite IH; reflexivity.
Qed.

(** * Properties of the Poincare sampling *)

Module DriverFacts.
Import RealModel RealDriver.
Local Open Scope R_scope.

(** ** Strided sampling of the trajectory *)

Lemma poincare_section_every (X : list state) (pstep : Z) :
  pstep <> 0%Z ->
  poincare_section X pstep
  = Return (map fst (every_from (Z.abs_nat pstep - 1) 0
                       (if (0 <? pstep)%Z then X else rev X)),
            map snd (every_from (Z.abs_nat pstep - 1) 0
                       (if (0 <? pstep)%Z then X else rev X))).
Proof.
  intro Hp. unfold poincare_section, columns.
  destruct pstep as [| p | p]; [congruence | |]; cbn [slice_step bind].
  - rewrite !every_from_map. reflexivity.
  - rewrite <- !map_rev, !every_from_map. reflexivity.
Qed.

Lemma sampled_rows (L : list state) (p j : nat) :
  (1 <= p)%nat ->
  (j < length (every_from (p - 1) 0 L))%nat ->
  (j * p < length L)%nat
  /\ exists a b,
       nth_error L (j * p) = Some (a, b)
       /\ nth_error (map fst (every_from (p - 1) 0 L)) j = Some a
       /\ nth_error (map snd (every_from (p - 1) 0 L)) j = Some b.
Proof.
  intros Hp Hj.
  assert (Hlt : (j * S (p - 1) < length L)%nat)
    by (apply every_from_length_lt; exact Hj).
  replace (S (p - 1)) with p in Hlt by lia.
  split; [exact Hlt |].
  destruct (nth_error L (j * p)) as [[a b] |] eqn:E.
  2:{ apply nth_error_None in E. lia. }
  exists a, b. split; [reflexivity |].
  rewrite !nth_error_map, every_from_nth_error.
  replace (S (p - 1)) with p by lia. cbn [Nat.add].
  rewrite E. split; reflexivity.
Qed.

(** X11. For a non-zero stride the script scatters, as point [j], the two
    components of one and the same row of the trajectory: row [j * pstep]
    for a positive stride, and for a negative one row [j * |pstep|]
    counted back from the last.  There are as many points as multiples of
    the stride below the number of rows. *)
Theorem poincare_section_samples (X : list state) (pstep : Z) :
  pstep <> 0%Z ->
  exists xs vs,
    poincare_section X pstep = Return (xs, vs)
    /\ length xs = length vs
    /\ (forall j, (j < length xs)%nat <-> (j * Z.abs_nat pstep < length X)%nat)
    /\ forall j, (j < length xs)%nat ->
         exists a b,
           nth_error (if (0 <? pstep)%Z then X else rev X) (j * Z.abs_nat pstep)
           = Some (a, b)
           /\ nth_error xs j = Some a
           /\ nth_error vs j = Some b.
Proof.
  intro Hp.
  assert (H1 : (1 <= Z.abs_nat pstep)%nat) by lia.
  set (L := if (0 <? pstep)%Z then X else rev X).
  assert (HL : length L = length X).
  { unfold L. destruct (0 <? pstep)%Z; [reflexivity | apply length_rev]. }
  eexists. eexists.
  split; [apply poincare_section_every; exact Hp |].
  fold L. rewrite !length_map.
  split; [reflexivity |].
  split.
  - intro j. rewrite <- HL, every_from_length_lt.
    replace (S (Z.abs_nat pstep - 1)) with (Z.abs_nat pstep) by lia.
    reflexivity.
  - intros j Hj. apply (sampled_rows L H1 Hj).
Qed.

Lemma poincare_section_samples_witness :
  exists xs vs,
    poincare_section [(1, 2); (3, 4); (5, 6)] 2 = Return (xs, vs)
    /\ length xs = length vs
    /\ (forall j, (j < length xs)%nat
                  <-> (j * Z.abs_nat 2 < length [(1, 2); (3, 4); (5, 6)])%nat)
    /\ forall j, (j < length xs)%nat ->
         exists a b,
           nth_error (if (0 <? 2)%Z then [(1, 2); (3, 4); (5, 6)]
                      else rev [(1, 2); (3, 4); (5, 6)]) (j * Z.abs_nat 2)
           = Some (a, b)
           /\ nth_error xs j = Some a
           /\ nth_error vs j = Some b.
Proof.
  apply (@poincare_section_samples [(1, 2); (3, 4); (5, 6)] 2). lia.
Defined.

End DriverFacts.

(** * Further properties of the solver on doubles *)

Module Binary64SolverFacts.
Import Binary64 Binary64Facts.
Local Open Scope float_scope.

(** ** Division of [nan] and of a zero *)

Lemma float_of_spec (x : float) (s : spec_float) : Prim2SF x = s -> x = SF2Prim s.
Proof. intros <-. symmetry. apply SF2Prim_Prim2SF. Qed.

Lemma nan_div (f : float) : nan / f = nan.
Proof.
  apply Prim2SF_inj. rewrite div_spec.
  change (Prim2SF nan) with S754_nan. reflexivity.
Qed.

Lemma zero_div (w f : float) (s : bool) :
  Prim2SF w = S754_zero s -> (f =? 0) = false ->
  (w / f =? 0) = true \/ w / f = nan.
Proof.
  intros Hw Hf.
  rewrite eqb_spec in Hf. change (Prim2SF 0) with (S754_zero false) in Hf.
  assert (Hd := div_spec w f). rewrite Hw in Hd.
  destruct (Prim2SF f) as [sf | sf | | sf m e] eqn:Ef.
  - discriminate Hf.
  - left. rewrite eqb_spec, Hd. reflexivity.
  - right. apply Prim2SF_inj. rewrite Hd. reflexivity.
  - left. rewrite eqb_spec, Hd. reflexivity.
Qed.

Section Solver.

Variable np_cos : float -> float.
Variable np_power : float -> float -> float.
Variable odeint :
  (state -> float -> float -> float -> float -> state) ->
  state -> list float -> float * float * float -> list state.

(** X13. On doubles an [omega] that is [nan] or infinite never gives a
    result: whatever the other arguments, the call raises. *)
Theorem nonfinite_omega_raises
  (tmax : float) (n : Z) (t_trans x0 v0 gamma delta omega : float) :
  omega = nan \/ omega = infinity \/ omega = neg_infinity ->
  raises (solve_duffing np_cos np_power odeint
            tmax n t_trans x0 v0 gamma delta omega).
Proof.
  intro Ho. unfold solve_duffing, float_of_int.
  destruct (is_infinity (of_Z n)); [destruct Ho as [-> | [-> | ->]]; exact I |].
  destruct Ho as [-> | Ho].
  - change (div (2 * np_pi) nan) with (@Return float nan). cbn [bind].
    unfold div at 1. destruct (of_Z n =? 0); [exact I |]. cbn [bind].
    rewrite nan_div. exact I.
  - assert (Hw : exists w s, div (2 * np_pi) omega = Return w
                             /\ Prim2SF w = S754_zero s).
    { destruct Ho as [-> | ->].
      - exists 0, false. split; reflexivity.
      - exists (-0), true. split; reflexivity. }
    destruct Hw as (w & s & -> & Hw). cbn [bind].
    unfold div at 1. destruct (of_Z n =? 0) eqn:Ez; [exact I |]. cbn [bind].
    destruct (@zero_div w (of_Z n) s Hw Ez) as [Hz | Hnan].
    + unfold div at 1. rewrite Hz. exact I.
    + rewrite Hnan.
      assert (E : div w nan = Return nan).
      { unfold div. change (nan =? 0) with false. cbn iota.
        f_equal. apply Prim2SF_inj. rewrite div_spec, Hw. reflexivity. }
      rewrite E. exact I.
Qed.

(** X15. On doubles a call that returns never hands back a zero or [nan]
    spacing: the returned [dt] is the double [2*np.pi/omega/dt_per_period],
    it compares unequal to zero (an underflow to zero raises
    [ZeroDivisionError] instead) and it is not [nan]; [omega] and
    [dt_per_period] were not zero. *)
Theorem returned_dt_is_usable
  (tmax : float) (n : Z) (t_trans x0 v0 gamma delta omega : float)
  (r : list float * list state * float * Z) :
  solve_duffing np_cos np_power odeint tmax n t_trans x0 v0 gamma delta omega
  = Return r ->
  dt_of r = 2 * np_pi / omega / of_Z n
  /\ (dt_of r =? 0) = false
  /\ dt_of r <> nan
  /\ (omega =? 0) = false
  /\ n <> 0%Z.
Proof.
  unfold solve_duffing. intro H.
  do 6 open_bind H.
  unfold div in E, E0, E2, E3. unfold float_of_int in E1. cbv zeta in E1.
  destruct (omega =? 0) eqn:Eo; [discriminate E |].
  assert (Ea : a = 2 * np_pi / omega) by congruence.
  assert (Ea0 : a0 = 2 * np_pi / omega) by congruence.
  destruct (is_infinity (of_Z n)); [discriminate E1 |].
  assert (Ea1 : a1 = of_Z n) by congruence.
  subst a a0 a1. clear E E0 E1.
  destruct (of_Z n =? 0) eqn:En; [discriminate E2 |].
  assert (Ea2 : a2 = 2 * np_pi / omega / of_Z n) by congruence.
  destruct (a2 =? 0) eqn:Ed; [discriminate E3 |].
  assert (Ea3 : a3 = 2 * np_pi / omega / a2) by congruence.
  clear E2 E3.
  do 3 open_bind H. injection H as <-.
  unfold dt_of; cbn [fst snd].
  split; [exact Ea2 |]. split; [exact Ed |].
  split; [| split; [reflexivity |]].
  - intro Hnan. rewrite Hnan in Ea3.
    assert (Eq : 2 * np_pi / omega / nan = nan).
    { apply Prim2SF_inj. rewrite div_spec.
      change (Prim2SF nan) with S754_nan.
      destruct (Prim2SF (2 * np_pi / omega)); reflexivity. }
    rewrite Eq in Ea3. subst a3. discriminate E4.
  - intros ->. discriminate En.
Qed.

(** [odeint] returns one row per time of a non-empty grid. *)
Hypothesis odeint_rows :
  forall func y0 t args, t <> [] -> length (odeint func y0 t args) = length t.

(** X14. On doubles, whenever the call returns, the returned times are a
    suffix [t[m:]] of the grid [np.arange(0, tmax, dt)] and, the grid
    being non-empty, the returned states are the suffix from the same
    position [m] of the integrator's rows, so that the two arrays have the
    same length and pair up item by item.  This holds for every input,
    negative or oversized [t_trans] included. *)
Theorem returned_arrays_share_one_offset
  (tmax : float) (n : Z) (t_trans x0 v0 gamma delta omega : float)
  (r : list float * list state * float * Z) :
  solve_duffing np_cos np_power odeint tmax n t_trans x0 v0 gamma delta omega
  = Return r ->
  exists (t : list float) (m : nat),
    arange 0 tmax (dt_of r) = Return t
    /\ times_of r = skipn m t
    /\ (t <> [] ->
        states_of r
        = skipn m (odeint (deriv np_cos np_power) (x0, v0) t (gamma, delta, omega))
        /\ length (states_of r) = length (times_of r)).
Proof.
  unfold solve_duffing. intro H.
  do 9 open_bind H. injection H as <-.
  unfold times_of, states_of, dt_of; cbn [fst snd].
  match goal with
  | Ea : arange 0 tmax ?dt = Return ?t |- _ =>
      exists t;
      exists (if (0 <=? a7)%Z then Z.to_nat a7
              else Z.to_nat (Z.max 0 (Z.of_nat (length t) + a7)));
      split; [exact Ea |]
  end.
  unfold slice_from.
  split; [destruct (0 <=? a7)%Z; reflexivity |].
  intro Hne. rewrite (odeint_rows _ _ _ Hne).
  split; [destruct (0 <=? a7)%Z; reflexivity |].
  destruct (0 <=? a7)%Z; rewrite !length_skipn, (odeint_rows _ _ _ Hne);
    reflexivity.
Qed.

End Solver.

Lemma euler64_from_rows func (y : state) (t0 : float) (ts : list float)
  (args : float * float * float) :
  length (euler_from func y t0 ts args) = length ts.
Proof.
  revert y t0. induction ts as [| t1 ts IH]; intros y t0; [reflexivity |].
  destruct args as [[gamma delta] omega]. cbn. rewrite IH. reflexivity.
Qed.

Lemma euler64_rows func (y0 : state) (t : list float) (args : float * float * float) :
  t <> [] -> length (euler func y0 t args) = length t.
Proof.
  intros _. destruct t as [| t0 ts]; [reflexivity |].
  cbn. rewrite euler64_from_rows. reflexivity.
Qed.

Lemma nonfinite_omega_raises_witness :
  raises (solve_duffing cos_taylor power_by_mul euler 100 100 10 0 0 f0_08 f0_02 infinity).
Proof.
  apply (@nonfinite_omega_raises cos_taylor power_by_mul euler
           100 100 10 0 0 f0_08 f0_02 infinity).
  right; left; reflexivity.
Defined.

Lemma returned_dt_is_usable_witness :
  exists r,
    solve_duffing cos_taylor power_by_mul euler 7 2 4 0 0 f0_08 f0_02 1 = Return r
    /\ dt_of r = 2 * np_pi / 1 / of_Z 2
    /\ (dt_of r =? 0) = false
    /\ dt_of r <> nan
    /\ (1 =? 0) = false
    /\ 2%Z <> 0%Z.
Proof.
  eexists. split; [vm_compute; reflexivity |].
  apply (@returned_dt_is_usable cos_taylor power_by_mul euler
           7 2 4 0 0 f0_08 f0_02 1).
  vm_compute. reflexivity.
Defined.

Lemma returned_arrays_share_one_offset_witness :
  exists r,
    solve_duffing cos_taylor power_by_mul euler 7 2 (-4) 0 0 f0_08 f0_02 1 = Return r
    /\ exists (t : list float) (m : nat),
         arange 0 7 (dt_of r) = Return t
         /\ times_of r = skipn m t
         /\ (t <> [] ->
             states_of r
             = skipn m (euler (deriv cos_taylor power_by_mul) (0, 0) t
                          (f0_08, f0_02, 1))
             /\ length (states_of r) = length (times_of r)).
Proof.
  eexists. split; [vm_compute; reflexivity |].
  apply (@returned_arrays_share_one_offset cos_taylor power_by_mul euler euler64_rows
           7 2 (-4) 0 0 f0_08 f0_02 1).
  vm_compute. reflexivity.
Defined.

End Binary64SolverFacts.


(** * The grid and the cut of a returning call, on doubles *)

Module Binary64GridFacts.
Import Binary64 Binary64Facts Binary64SolverFacts.
Local Open Scope float_scope.

(** ** Signs of the results of the arithmetic *)

(** Not below zero: a zero or an infinity or a finite number with the sign
    bit clear, or [nan]. *)
Definition nonneg (x : spec_float) : Prop :=
  match x with
  | S754_zero s | S754_infinity s | S754_finite s _ _ => s = false
  | S754_nan => True
  end.

(** Above zero: finite and not zero, or the positive infinity. *)
Definition above_zero (x : spec_float) : Prop :=
  match x with
  | S754_infinity s | S754_finite s _ _ => s = false
  | S754_zero _ | S754_nan => False
  end.

(** Nothing that [int] turns into a negative integer. *)
Definition not_below_zero (x : spec_float) : Prop :=
  match x with
  | S754_finite s _ _ => s = false
  | _ => True
  end.

Lemma above_zero_nonneg x : above_zero x -> nonneg x.
Proof. destruct x; cbn; tauto. Qed.

Lemma nonneg_not_below_zero x : nonneg x -> not_below_zero x.
Proof. destruct x; cbn; tauto. Qed.

Lemma binary_round_aux_sign (s : bool) (m e : Z) (l : location) :
  match binary_round_aux prec emax s m e l with
  | S754_zero s' | S754_infinity s' | S754_finite s' _ _ => s' = s
  | S754_nan => True
  end.
Proof.
  unfold binary_round_aux.
  destruct (shr_fexp prec emax m e l) as [mrs' e'].
  destruct (shr_fexp prec emax _ e' loc_Exact) as [mrs'' e''].
  destruct (shr_m mrs''); [reflexivity | | exact I].
  destruct (Z.leb e'' (Z.sub emax prec)); reflexivity.
Qed.

Lemma binary_round_aux_nonneg (m e : Z) (l : location) :
  nonneg (binary_round_aux prec emax false m e l).
Proof.
  generalize (binary_round_aux_sign false m e l).
  destruct (binary_round_aux prec emax false m e l); cbn; tauto.
Qed.

Lemma binary_round_nonneg (m : positive) (e : Z) :
  nonneg (binary_round prec emax false m e).
Proof.
  unfold binary_round.
  destruct (shl_align m e _) as [mz ez].
  apply binary_round_aux_nonneg.
Qed.

Lemma binary_normalize_nonneg (z e : Z) :
  (0 <= z)%Z -> nonneg (binary_normalize prec emax z e false).
Proof.
  intro Hz. destruct z as [| p | p]; cbn [binary_normalize].
  - reflexivity.
  - apply binary_round_nonneg.
  - lia.
Qed.

Lemma SFdiv_nonneg x y : nonneg x -> nonneg y -> nonneg (SFdiv prec emax x y).
Proof.
  destruct x as [sx | sx | | sx mx ex], y as [sy | sy | | sy my ey];
    cbn; try tauto; try (intros -> ->; reflexivity).
  intros -> ->. cbn.
  destruct (SFdiv_core_binary prec emax (Zpos mx) ex (Zpos my) ey) as [[mz ez] lz].
  apply binary_round_aux_nonneg.
Qed.


Lemma SFldexp_nonneg x e : nonneg x -> nonneg (SFldexp prec emax x e).
Proof.
  destruct x as [sx | sx | | sx mx ex]; cbn; try tauto.
  intros ->. apply binary_round_nonneg.
Qed.

(** A non-negative integer converts to a double that is not below zero. *)
Lemma of_Z_nonneg (z : Z) : (0 <= z)%Z -> nonneg (Prim2SF (of_Z z)).
Proof.
  intro Hz. unfold of_Z.
  assert (Hn := binary_normalize_nonneg 0 Hz).
  destruct (binary_normalize prec emax z 0 false) as [s | s | | s m e];
    cbn in Hn; try subst s.
  - reflexivity.
  - reflexivity.
  - exact I.
  - cbn [SF2Prim].
    rewrite Z_ldexp_spec, of_uint63_spec.
    apply SFldexp_nonneg, binary_normalize_nonneg.
    apply Uint63.to_Z_bounded.
Qed.

Lemma ltb_zero_above_zero (x : float) : (0 <? x) = true -> above_zero (Prim2SF x).
Proof.
  rewrite ltb_spec. change (Prim2SF 0) with (S754_zero false).
  destruct (Prim2SF x) as [s | [|] | | [|] m e]; cbn; congruence.
Qed.


Lemma leb_zero_not_below_zero (x : float) :
  (0 <=? x) = true -> nonneg (Prim2SF x) \/ exists s, Prim2SF x = S754_zero s.
Proof.
  rewrite leb_spec. change (Prim2SF 0) with (S754_zero false).
  destruct (Prim2SF x) as [s | [|] | | [|] m e]; cbn; try congruence;
    intros _; try (left; reflexivity).
  right. exists s. reflexivity.
Qed.


Lemma nonneg_nonzero_above_zero (x : float) :
  nonneg (Prim2SF x) -> (x =? 0) = false -> x <> nan -> above_zero (Prim2SF x).
Proof.
  intros Hn Hz Hnan. rewrite eqb_spec in Hz.
  change (Prim2SF 0) with (S754_zero false) in Hz.
  destruct (Prim2SF x) as [s | s | | s m e] eqn:E; cbn in *.
  - discriminate Hz.
  - exact Hn.
  - apply Hnan. apply Prim2SF_inj. rewrite E. reflexivity.
  - exact Hn.
Qed.

(** ** Adding and subtracting zero *)



(** ** What [int] returns *)

Lemma int_not_below_zero (f : float) (z : Z) :
  not_below_zero (Prim2SF f) -> int f = Return z -> (0 <= z)%Z.
Proof.
  unfold int, not_below_zero.
  destruct (Prim2SF f) as [s | s | | s m e]; intros Hs H;
    try discriminate H; injection H as <-.
  - lia.
  - subst s. unfold signed.
    destruct e as [| p | p].
    + lia.
    + assert (Hp : (0 < 2 ^ Z.pos p)%Z) by (apply Z.pow_pos_nonneg; lia).
      change (2 ^ Z.pos p)%Z with (Z.pow_pos 2 p) in Hp.
      apply Z.mul_nonneg_nonneg; lia.
    + assert (Hp : (0 < 2 ^ Z.pos p)%Z) by (apply Z.pow_pos_nonneg; lia).
      change (2 ^ Z.pos p)%Z with (Z.pow_pos 2 p) in Hp.
      apply Z.quot_pos; lia.
Qed.

(** ** What a returning call went through *)

(** The preconditions the docstring states, read on doubles. *)
Definition valid (tmax : float) (dt_per_period : Z) (t_trans omega : float) : Prop :=
  (0 <? tmax) = true
  /\ (2 <= dt_per_period)%Z
  /\ (0 <=? t_trans) = true
  /\ (t_trans <? tmax) = true
  /\ (0 <? omega) = true.

Lemma div_Return (a b c : float) :
  div a b = Return c -> (b =? 0) = false /\ c = a / b.
Proof.
  unfold div. destruct (b =? 0); [discriminate |].
  intros [= <-]. split; reflexivity.
Qed.

Lemma div_nan (x : float) : x / nan = nan.
Proof.
  apply Prim2SF_inj. rewrite div_spec.
  change (Prim2SF nan) with S754_nan.
  destruct (Prim2SF x); reflexivity.
Qed.



Lemma cutoff_not_negative (t_trans dt : float) (idx : Z) :
  (0 <=? t_trans) = true -> above_zero (Prim2SF dt) ->
  int (t_trans / dt) = Return idx -> (0 <= idx)%Z.
Proof.
  intros Ht Hdt. apply int_not_below_zero. rewrite div_spec.
  destruct (@leb_zero_not_below_zero t_trans Ht) as [Hn | [s ->]].
  - apply nonneg_not_below_zero, SFdiv_nonneg;
      [exact Hn | apply above_zero_nonneg; exact Hdt].
  - destruct (Prim2SF dt) as [sd | sd | | sd md ed]; cbn in *; tauto.
Qed.

Section Solver.

Variable np_cos : float -> float.
Variable np_power : float -> float -> float.
Variable odeint :
  (state -> float -> float -> float -> float -> state) ->
  state -> list float -> float * float * float -> list state.

Lemma solve_duffing_inv
  (tmax : float) (n : Z) (t_trans x0 v0 gamma delta omega : float)
  (r : list float * list state * float * Z) :
  solve_duffing np_cos np_power odeint tmax n t_trans x0 v0 gamma delta omega
  = Return r ->
  (omega =? 0) = false
  /\ (of_Z n =? 0) = false
  /\ (dt_of r =? 0) = false
  /\ dt_of r <> nan
  /\ dt_of r = 2 * np_pi / omega / of_Z n
  /\ int (2 * np_pi / omega / dt_of r) = Return (step_of r)
  /\ exists t idx,
       arange 0 tmax (dt_of r) = Return t
       /\ int (t_trans / dt_of r) = Return idx
       /\ r = (slice_from idx t,
               slice_from idx
                 (odeint (deriv np_cos np_power) (x0, v0) t (gamma, delta, omega)),
               dt_of r, step_of r).
Proof.
  unfold solve_duffing. intro H.
  open_bind H. apply div_Return in E. destruct E as [Ho Ea].
  open_bind H. apply div_Return in E. destruct E as [_ Ea0].
  open_bind H. unfold float_of_int in E. cbv zeta in E.
  destruct (is_infinity (of_Z n)); [discriminate E |].
  assert (Ea1 : a1 = of_Z n) by congruence. clear E.
  open_bind H. apply div_Return in E. destruct E as [Hn Ea2].
  open_bind H. apply div_Return in E. destruct E as [Hd Ea3].
  open_bind H. rename E into Hstep.
  open_bind H. rename E into Hgrid.
  open_bind H. apply div_Return in E. destruct E as [_ Ea6].
  open_bind H. rename E into Hidx.
  assert (Er : r = (slice_from a7 a5,
                    slice_from a7
                      (odeint (deriv np_cos np_power) (x0, v0) a5 (gamma, delta, omega)),
                    a2, a4)) by congruence.
  clear H. subst r. unfold dt_of, step_of; cbn [fst snd].
  subst a a0 a1 a3 a6.
  split; [exact Ho |]. split; [exact Hn |]. split; [exact Hd |].
  split.
  { intro Hnan. rewrite Hnan, div_nan in Hstep. discriminate Hstep. }
  split; [exact Ea2 |]. split; [exact Hstep |].
  exists a5, a7. split; [exact Hgrid |]. split; [exact Hidx | reflexivity].
Qed.

Lemma returned_dt_above_zero
  (tmax : float) (n : Z) (t_trans x0 v0 gamma delta omega : float)
  (r : list float * list state * float * Z) :
  (0 <? omega) = true -> (0 < n)%Z ->
  solve_duffing np_cos np_power odeint tmax n t_trans x0 v0 gamma delta omega
  = Return r ->
  above_zero (Prim2SF (dt_of r)).
Proof.
  intros Ho Hn H.
  apply solve_duffing_inv in H. destruct H as (_ & _ & Hd & Hnan & Edt & _).
  apply nonneg_nonzero_above_zero; [| exact Hd | exact Hnan].
  rewrite Edt, !div_spec.
  apply SFdiv_nonneg; [apply SFdiv_nonneg |].
  - vm_compute. reflexivity.
  - apply above_zero_nonneg, ltb_zero_above_zero. exact Ho.
  - apply of_Z_nonneg. lia.
Qed.



(** [odeint] returns one row per time of a non-empty grid. *)
Hypothesis odeint_rows :
  forall func y0 t args, t <> [] -> length (odeint func y0 t args) = length t.

(** C7. On a valid input on which the call returns, with
    [dt = 2*np.pi/omega/dt_per_period], the cutoff index
    [idx = int(t_trans/dt)] is not negative, the returned times are the
    grid without its first [idx] items, so that their number is the length
    of the grid minus [idx] (none when [idx] is past the end), and item
    [i] is grid time [idx + i]; the grid being non-empty, [odeint] gave one
    row per grid time, the returned states are as many as the returned
    times, and state [i] is row [idx + i]: the state at returned time
    [i]. *)
Theorem returned_arrays_aligned
  (tmax : float) (n : Z) (t_trans x0 v0 gamma delta omega : float)
  (r : list float * list state * float * Z) :
  valid tmax n t_trans omega ->
  solve_duffing np_cos np_power odeint tmax n t_trans x0 v0 gamma delta omega
  = Return r ->
  exists (t : list float) (idx : Z),
    dt_of r = 2 * np_pi / omega / of_Z n
    /\ arange 0 tmax (dt_of r) = Return t
    /\ int (t_trans / dt_of r) = Return idx
    /\ (0 <= idx)%Z
    /\ length (times_of r) = (length t - Z.to_nat idx)%nat
    /\ (forall i, (i < length (times_of r))%nat ->
          exists ti,
            nth_error (times_of r) i = Some ti
            /\ nth_error t (Z.to_nat idx + i) = Some ti)
    /\ (t <> [] ->
        let X := odeint (deriv np_cos np_power) (x0, v0) t (gamma, delta, omega) in
        length X = length t
        /\ length (states_of r) = length (times_of r)
        /\ forall i, (i < length (times_of r))%nat ->
             exists Xi,
               nth_error (states_of r) i = Some Xi
               /\ nth_error X (Z.to_nat idx + i) = Some Xi).
Proof.
  intros (Htmax & Hn & Ht0 & Ht & Ho) H.
  assert (Hdt : above_zero (Prim2SF (dt_of r))).
  { eapply returned_dt_above_zero; [exact Ho | | exact H]. lia. }
  apply solve_duffing_inv in H.
  destruct H as (_ & _ & _ & _ & Edt & _ & t & idx & Hgrid & Hidx & Er).
  assert (Hpos : (0 <= idx)%Z)
    by (apply (@cutoff_not_negative t_trans (dt_of r) idx Ht0 Hdt Hidx)).
  exists t, idx.
  split; [exact Edt |].
  split; [exact Hgrid |]. split; [exact Hidx |]. split; [exact Hpos |].
  rewrite Er. unfold times_of, states_of; cbn [fst snd].
  assert (Hlen : length (slice_from idx t) = (length t - Z.to_nat idx)%nat)
    by (apply slice_from_length; exact Hpos).
  split; [exact Hlen |].
  split.
  - intros i Hi. rewrite (slice_from_nth_error _ _ Hpos).
    destruct (nth_error t (Z.to_nat idx + i)) as [ti |] eqn:E.
    + exists ti. split; reflexivity.
    + apply nth_error_None in E. lia.
  - intros Hne. cbv zeta.
    set (X := odeint (deriv np_cos np_power) (x0, v0) t (gamma, delta, omega)).
    assert (HX : length X = length t) by (apply odeint_rows; exact Hne).
    assert (HlX : length (slice_from idx X) = (length t - Z.to_nat idx)%nat)
      by (rewrite <- HX; apply slice_from_length; exact Hpos).
    split; [exact HX |]. split; [congruence |].
    intros i Hi. rewrite (slice_from_nth_error _ _ Hpos).
    destruct (nth_error X (Z.to_nat idx + i)) as [Xi |] eqn:E.
    + exists Xi. split; reflexivity.
    + apply nth_error_None in E. lia.
Qed.


End Solver.

(** ** Runs that refute the claims as they were stated *)




(** ** Runs of the theorems *)


Lemma returned_arrays_aligned_witness :
  exists r,
    solve_duffing cos_taylor power_by_mul euler 7 2 4 0 0 f0_08 f0_02 1 = Return r
    /\ exists (t : list float) (idx : Z),
         dt_of r = 2 * np_pi / 1 / of_Z 2
         /\ arange 0 7 (dt_of r) = Return t
         /\ int (4 / dt_of r) = Return idx
         /\ (0 <= idx)%Z
         /\ length (times_of r) = (length t - Z.to_nat idx)%nat
         /\ (forall i, (i < length (times_of r))%nat ->
               exists ti,
                 nth_error (times_of r) i = Some ti
                 /\ nth_error t (Z.to_nat idx + i) = Some ti)
         /\ (t <> [] ->
             let X := euler (deriv cos_taylor power_by_mul) (0, 0) t
                        (f0_08, f0_02, 1) in
             length X = length t
             /\ length (states_of r) = length (times_of r)
             /\ forall i, (i < length (times_of r))%nat ->
                  exists Xi,
                    nth_error (states_of r) i = Some Xi
                    /\ nth_error X (Z.to_nat idx + i) = Some Xi).
Proof.
  eexists. split; [vm_compute; reflexivity |].
  apply (@returned_arrays_aligned cos_taylor power_by_mul euler euler64_rows
           7 2 4 0 0 f0_08 f0_02 1).
  - unfold valid. repeat split; try lia; vm_compute; reflexivity.
  - vm_compute. reflexivity.
Defined.


End Binary64GridFacts.
